(** * cereal: the named binary archives (include/cereal/archives/named_binary.hpp)

    A shallow embedding of [NamedBinaryOutputArchive] and
    [NamedBinaryInputArchive], and the properties of the framing, the
    elision of empty nodes, the binding of names and the reader.

    Conventions of the embedding.
    - [std::size_t] and [uint64_t] are 64-bit unsigned integers, modelled in
      [N]; their arithmetic wraps at [2^64].  [int] is a 32-bit signed
      integer, modelled in [Z].
    - A [char] is a [Byte.byte]; a buffer [(data, size)] passed to
      [saveBinary] is the list of the [size] bytes found at [data].
    - [std::string] is [String.string].
    - A stream is the sequence of bytes it holds.  The output stream and the
      [std::stringstream] of a node grow without bound, so that [put], [write]
      and [sputn] accept every byte they are given; the input stream is the
      sequence of bytes that remain to be read.
    - A member function is a function from the archive to an [outcome]: the
      archive after a normal return, the archive at the point where a
      [cereal::Exception] was thrown, or [Undefined] where the C++ has no
      defined behaviour ([top()] of an empty [std::stack]). *)

From Stdlib.Strings Require Import Byte String.
From Stdlib.Numbers Require Import DecimalString.
From Stdlib Require Import List NArith ZArith Bool Lia.
Import ListNotations.

Local Open Scope N_scope.
Local Open Scope list_scope.

(* ################################################################# *)
(** * Machine integers, characters and strings *)

(** [sizeof(std::size_t)] and [sizeof(uint64_t)], in bytes. *)
Definition sizeof_size_t : N := 8.
Definition sizeof_uint64_t : N := 8.

(** The modulus of [std::size_t] and [uint64_t] arithmetic. *)
Definition two64 : N := 2 ^ 64.

(** Conversion of an unsigned 64-bit value to [char]: the low 8 bits. *)
Definition char_of_uint64 (v : N) : byte :=
  match Byte.of_N (v mod 256) with
  | Some b => b
  | None => x00
  end.

(** Narrowing of a [std::streamsize] to [int] (two's complement, 32 bits). *)
Definition int_of_streamsize (n : N) : Z :=
  let m := (Z.of_N n mod 2 ^ 32)%Z in
  if (m <? 2 ^ 31)%Z then m else (m - 2 ^ 32)%Z.

(** Conversion of an [int] to [std::size_t], as the comparison of an [int]
    with a [std::size_t] performs it. *)
Definition size_t_of_int (i : Z) : N := Z.to_N (i mod 2 ^ 64)%Z.

(** [std::to_string] on an unsigned and on a signed integer. *)
Definition to_string (n : N) : string := NilZero.string_of_uint (N.to_uint n).
Definition to_string_int (i : Z) : string := NilZero.string_of_int (Z.to_int i).

(** [std::string::size]. *)
Definition size (s : string) : N := N.of_nat (String.length s).

(** The characters of a [std::string]. *)
Definition chars (s : string) : list byte := list_byte_of_string s.

(* ################################################################# *)
(** * Stream buffers *)

(** [std::streambuf::sputn] on a growing buffer: every byte is appended, and
    the number of bytes appended is returned. *)
Definition sputn (buf data : list byte) : list byte * N :=
  (buf ++ data, N.of_nat (length data)).

(** [std::ostream::put] and [std::ostream::write]. *)
Definition put (c : byte) (os : list byte) : list byte := os ++ [c].
Definition write (s : list byte) (os : list byte) : list byte := os ++ s.

(** [std::streambuf::sgetn]: the bytes read, the bytes that remain, and the
    number of bytes read, which is [n] or all there was. *)
Definition sgetn (buf : list byte) (n : N) : list byte * list byte * N :=
  let data := firstn (N.to_nat n) buf in
  (data, skipn (N.to_nat n) buf, N.of_nat (length data)).

(* ################################################################# *)
(** * Exceptions and outcomes *)

(** [cereal::Exception]: a [std::runtime_error], which carries its message. *)
Record Exception : Type := mkException { what : string }.

(** The outcome of a member function on an archive of type [S] that returns
    an [A]. *)
Inductive outcome (S A : Type) : Type :=
| Done (a : A) (s : S)
| Thrown (e : Exception) (s : S)
| Undefined.

Arguments Done {S A} a s.
Arguments Thrown {S A} e s.
Arguments Undefined {S A}.

(** Sequencing: the first exception, or the first undefined step, ends the
    run. *)
Definition bind {S A B : Type} (m : S -> outcome S A) (f : A -> S -> outcome S B)
  (s : S) : outcome S B :=
  match m s with
  | Done a s' => f a s'
  | Thrown e s' => Thrown e s'
  | Undefined => Undefined
  end.

Definition ret {S A : Type} (a : A) (s : S) : outcome S A := Done a s.

Notation "x <- m ;; k" := (bind m (fun x => k))
  (at level 61, m at next level, right associativity).
Notation "m ;;; k" := (bind m (fun _ => k))
  (at level 61, right associativity).

(** The archive an outcome leaves behind, when there is one. *)
Definition state_of {S A : Type} (o : outcome S A) : option S :=
  match o with
  | Done _ s => Some s
  | Thrown _ s => Some s
  | Undefined => None
  end.

(* ################################################################# *)
(** * The output archive *)

Module NamedValue_t.

(** [struct NamedValue_t]: the node of one value being saved. *)
Record t : Type := mk {
  itsStream : list byte;   (* std::stringstream itsStream *)
  itsSize : N;             (* std::size_t itsSize = 0 *)
  itsName : string;        (* std::string itsName = "" *)
  written : bool           (* bool written = false *)
}.

(** A default-constructed node. *)
Definition blank : t := mk [] 0 EmptyString false.

End NamedValue_t.

Module NamedBinaryOutputArchive.

Import NamedValue_t.

(** The data members: the pending name, the stack of nodes (its top is the
    head of the list) and the output stream. *)
Record t : Type := mk {
  nextName : string;
  itsNodes : list NamedValue_t.t;
  itsStream : list byte
}.

(** The constructor, on the stream to output to. *)
Definition create (stream : list byte) : t := mk EmptyString [] stream.

(** [saveBinary(data, size)]: the top node takes the pending name, the
    pending name is cleared, the bytes go to the stream of the node, and
    [itsSize] is assigned the number of bytes that [sputn] reports. *)
Definition saveBinary (data : list byte) (ar : t) : outcome t unit :=
  let size := N.of_nat (length data) in
  match itsNodes ar with
  | [] => Undefined
  | itsValue :: rest =>
      let name := nextName ar in
      let '(stream, n) := sputn (NamedValue_t.itsStream itsValue) data in
      let itsValue' := NamedValue_t.mk stream n name (written itsValue) in
      let ar' := mk EmptyString (itsValue' :: rest) (itsStream ar) in
      if negb (n =? size)
      then Thrown (mkException ("Failed to write " ++ to_string size
                     ++ " bytes to stringstream! Wrote " ++ to_string n)%string) ar'
      else Done tt ar'
  end.

(** One of the three loops of [finishNode]:
    [for (i = 0; i < sizeof(uint64_t); ++i) itsStream.put((v >> 8*i) & 0xF)]. *)
Definition put_loop (v : N) (os : list byte) : list byte :=
  fold_left
    (fun os i => put (char_of_uint64 (N.land (N.shiftr v (8 * i)) 15)) os)
    (map N.of_nat (seq 0 (N.to_nat sizeof_uint64_t))) os.

(** [node.itsSize + node.itsName.size() + sizeof(std::size_t)], the
    [totalSize] of [finishNode]. *)
Definition totalSize (node : NamedValue_t.t) : N :=
  (itsSize node + size (itsName node) + sizeof_size_t) mod two64.

(** [finishNode()]: a node whose [itsSize] is zero is popped; of any other
    node the three lengths, the name and the first [itsSize] bytes of the
    stream of the node are written, and the node is popped when the count
    of bytes written, held in an [int], equals [itsSize]. *)
Definition finishNode (ar : t) : outcome t unit :=
  match itsNodes ar with
  | [] => Undefined
  | node :: rest =>
      if itsSize node =? 0
      then Done tt (mk (nextName ar) rest (itsStream ar))
      else
        let os1 := put_loop (totalSize node) (itsStream ar) in
        let os2 := put_loop (size (itsName node)) os1 in
        let os3 := write (chars (itsName node)) os2 in
        let os4 := put_loop (itsSize node) os3 in
        let value_str := NamedValue_t.itsStream node in
        let count := N.min (N.of_nat (length value_str)) (itsSize node) in
        let '(os5, n) := sputn os4 (firstn (N.to_nat count) value_str) in
        let writtenSize := int_of_streamsize n in
        if negb (size_t_of_int writtenSize =? itsSize node)
        then Thrown (mkException ("Failed to write " ++ to_string (itsSize node)
                       ++ " bytes to output stream! Wrote "
                       ++ to_string_int writtenSize)%string)
               (mk (nextName ar) (node :: rest) os5)
        else Done tt (mk (nextName ar) rest os5)
  end.

(** [addNode()]: a blank node is pushed. *)
Definition addNode (ar : t) : outcome t unit :=
  Done tt (mk (nextName ar) (NamedValue_t.blank :: itsNodes ar) (itsStream ar)).

(** [setNextName(name)]. *)
Definition setNextName (name : string) (ar : t) : outcome t unit :=
  Done tt (mk name (itsNodes ar) (itsStream ar)).

End NamedBinaryOutputArchive.

(** [prologue] and [epilogue] of the output archive, for every type. *)
Definition prologue (ar : NamedBinaryOutputArchive.t) :=
  NamedBinaryOutputArchive.addNode ar.
Definition epilogue (ar : NamedBinaryOutputArchive.t) :=
  NamedBinaryOutputArchive.finishNode ar.

(* ################################################################# *)
(** * The input archive *)

Module NamedBinaryInputArchive.

Record t : Type := mk { itsStream : list byte }.

(** [loadBinary(data, size)]: [size] bytes are asked of the stream; the
    bytes read are returned when there are [size] of them. *)
Definition loadBinary (size : N) (ar : t) : outcome t (list byte) :=
  let '(data, rest, readSize) := sgetn (itsStream ar) size in
  if negb (readSize =? size)
  then Thrown (mkException ("Failed to read " ++ to_string size
                 ++ " bytes from input stream! Read " ++ to_string readSize)%string)
         (mk rest)
  else Done data (mk rest).

(** [setNextName(name)] has an empty body. *)
Definition setNextName (name : string) (ar : t) : outcome t unit := Done tt ar.

End NamedBinaryInputArchive.

(* ################################################################# *)
(** * The serialization functions of the archives *)

(** The values that the functions of the header serialize: arithmetic
    values, held as the [sizeof(t)] bytes of their object representation,
    name-value pairs, size tags and binary data; and the values of a class,
    which serialize their members in turn. *)
#[warnings="-register-all"]
Inductive value : Type :=
| Arithmetic (t : list byte)
| NameValuePair (name : string) (v : value)
| SizeTag (size : list byte)
| BinaryData (data : list byte)
| Composite (members : list value).

(** Modelled from the spec: the call operator [ar(v)] of the host framework
    ([OutputArchive] of cereal.hpp, which is not among the sources).  It
    runs the begin hook, the serialization function of the value, and the
    end hook. *)
Definition call (serialize : NamedBinaryOutputArchive.t ->
                             outcome NamedBinaryOutputArchive.t unit) :=
  prologue ;;; serialize ;;; epilogue.

(** The serialization functions of the header, under the call operator: an
    arithmetic value and a binary data go to [saveBinary]; a name-value pair
    sets the next name and serializes its value; a size tag serializes its
    size, an arithmetic value.  A class serializes its members in turn. *)
Fixpoint save (v : value) (ar : NamedBinaryOutputArchive.t)
  : outcome NamedBinaryOutputArchive.t unit :=
  call
    match v with
    | Arithmetic t => NamedBinaryOutputArchive.saveBinary t
    | NameValuePair name v' =>
        NamedBinaryOutputArchive.setNextName name ;;; save v'
    | SizeTag size => call (NamedBinaryOutputArchive.saveBinary size)
    | BinaryData data => NamedBinaryOutputArchive.saveBinary data
    | Composite members =>
        (fix save_members (vs : list value) :=
           match vs with
           | [] => ret tt
           | m :: vs' => save m ;;; save_members vs'
           end) members
    end ar.

(** The types of the values, with the byte counts that a load asks for. *)
#[warnings="-register-all"]
Inductive type : Type :=
| TArithmetic (sizeof : N)
| TNameValuePair (name : string) (t : type)
| TSizeTag (sizeof : N)
| TBinaryData (size : N)
| TComposite (members : list type).

Fixpoint type_of (v : value) : type :=
  match v with
  | Arithmetic t => TArithmetic (N.of_nat (length t))
  | NameValuePair name v' => TNameValuePair name (type_of v')
  | SizeTag size => TSizeTag (N.of_nat (length size))
  | BinaryData data => TBinaryData (N.of_nat (length data))
  | Composite members => TComposite (map type_of members)
  end.

(** The primitive values of a value, in the order of the traversal. *)
Fixpoint primitives (v : value) : list (list byte) :=
  match v with
  | Arithmetic t => [t]
  | NameValuePair _ v' => primitives v'
  | SizeTag size => [size]
  | BinaryData data => [data]
  | Composite members => flat_map primitives members
  end.

(** Modelled from the spec: the call operator of the host framework on the
    input archive ([InputArchive] of cereal.hpp, which is not among the
    sources); the header defines no [prologue] and no [epilogue] for the
    input archive.  The result is the list of the primitive values loaded. *)
Fixpoint load (t : type) (ar : NamedBinaryInputArchive.t)
  : outcome NamedBinaryInputArchive.t (list (list byte)) :=
  match t with
  | TArithmetic sizeof =>
      (d <- NamedBinaryInputArchive.loadBinary sizeof ;; ret [d]) ar
  | TNameValuePair name t' =>
      (NamedBinaryInputArchive.setNextName name ;;; load t') ar
  | TSizeTag sizeof =>
      (d <- NamedBinaryInputArchive.loadBinary sizeof ;; ret [d]) ar
  | TBinaryData size =>
      (d <- NamedBinaryInputArchive.loadBinary size ;; ret [d]) ar
  | TComposite members =>
      (fix load_members (ts : list type) :=
         match ts with
         | [] => ret []
         | m :: ts' =>
             ds <- load m ;; ds' <- load_members ts' ;; ret (ds ++ ds')
         end) members ar
  end.

(* ################################################################# *)
(** * The framing as the specification words it *)

(** Section 4.3 of the specification: a length is encoded on 8 bytes, least
    significant first, byte [i] holding bits [8*i] to [8*i+7] of the value. *)
Definition le64_spec (v : N) : list byte :=
  map (fun i => char_of_uint64 (N.land (N.shiftr v (8 * i)) 255))
      (map N.of_nat (seq 0 8)).

(** The wire layout of a Framed Record (sections 4.3 and 6). *)
Definition framed_record_spec (totalLength : N) (name : string)
  (payload : list byte) : list byte :=
  le64_spec totalLength ++ le64_spec (size name) ++ chars name
  ++ le64_spec (N.of_nat (length payload)) ++ payload.

(** Section 4.3 of the specification, read back: the value of a length
    field, from its bytes, least significant first. *)
Definition le64_value (field : list byte) : N :=
  fold_right (fun b acc => Byte.to_N b + 256 * acc) 0 field.

(** The three lengths that the Framed Record at the head of a stream
    declares, by the layout of sections 4.3 and 6: the total length in the
    first 8 bytes, the name length in the next 8, and the payload length in
    the 8 bytes that follow the name. *)
Definition record_lengths (os : list byte) : N * N * N :=
  let totalLength := le64_value (firstn 8 os) in
  let nameLength := le64_value (firstn 8 (skipn 8 os)) in
  let payloadLength :=
    le64_value (firstn 8 (skipn (16 + N.to_nat nameLength) os)) in
  (totalLength, nameLength, payloadLength).

(** The bytes that the output stream holds after a call, whether the call
    returned or threw. *)
Definition wire (o : outcome NamedBinaryOutputArchive.t unit)
  : option (list byte) :=
  option_map NamedBinaryOutputArchive.itsStream (state_of o).

(** The payload that [finishNode] writes for a node: the first [itsSize]
    bytes of its stream, or the whole stream when it is shorter. *)
Definition payload_of (node : NamedValue_t.t) : list byte :=
  firstn
    (N.to_nat (N.min (N.of_nat (length (NamedValue_t.itsStream node)))
                     (NamedValue_t.itsSize node)))
    (NamedValue_t.itsStream node).

(** The scenario of section 8: the 4-byte integer 42 named "x", with the
    object representation of a little-endian host. *)
Definition int42 : list byte := [x2a; x00; x00; x00].
Definition named_int42 : value := NameValuePair "x" (Arithmetic int42).

(** An 8-byte arithmetic value (the [double] 1.0), saved without a name. *)
Definition double1 : list byte := [x00; x00; x00; x00; x00; x00; xf0; x3f].

(** The bytes that [finishNode] writes for a node that it does not elide:
    the three length loops, the name and the payload, in the order of the
    statements of the function. *)
Definition record_of (node : NamedValue_t.t) : list byte :=
  NamedBinaryOutputArchive.put_loop (NamedBinaryOutputArchive.totalSize node) []
  ++ NamedBinaryOutputArchive.put_loop (size (NamedValue_t.itsName node)) []
  ++ chars (NamedValue_t.itsName node)
  ++ NamedBinaryOutputArchive.put_loop (NamedValue_t.itsSize node) []
  ++ payload_of node.

(** A buffer whose size an [int] holds. *)
Definition fits_int (data : list byte) : Prop :=
  N.of_nat (length data) < 2 ^ 31.

(** A node whose size is within the bytes its stream holds. *)
Definition node_ok (node : NamedValue_t.t) : Prop :=
  NamedValue_t.itsSize node <= N.of_nat (length (NamedValue_t.itsStream node)).

(** The members of a class, serialized in turn: [ar(m1); ar(m2); ...]. *)
Fixpoint save_each (vs : list value) (ar : NamedBinaryOutputArchive.t)
  : outcome NamedBinaryOutputArchive.t unit :=
  match vs with
  | [] => ret tt ar
  | m :: vs' => (save m ;;; save_each vs') ar
  end.

(** What saving a value does to an archive, when it returns: a new pending
    name and some bytes at the end of the stream, both independent of the
    nodes that are open and of the bytes already written. *)
Definition saves (v : value) : Prop :=
  forall nn, exists nn' bytes, forall rest os,
    save v (NamedBinaryOutputArchive.mk nn rest os)
    = Done tt (NamedBinaryOutputArchive.mk nn' rest (os ++ bytes)).

Definition saves_each (vs : list value) : Prop :=
  forall nn, exists nn' bytes, forall rest os,
    save_each vs (NamedBinaryOutputArchive.mk nn rest os)
    = Done tt (NamedBinaryOutputArchive.mk nn' rest (os ++ bytes)).

(** A node whose one write was of [2^31] zero bytes. *)
Definition gib2_node : NamedValue_t.t :=
  NamedValue_t.mk (repeat x00 (N.to_nat (2 ^ 31))) (2 ^ 31) EmptyString false.

(** The calls that the public members of the output archive offer, and a run
    of calls, one after the other, up to the first that does not return. *)
Inductive op : Type :=
| AddNode
| SetNextName (name : string)
| SaveBinary (data : list byte)
| FinishNode.

Definition step (o : op) (ar : NamedBinaryOutputArchive.t)
  : outcome NamedBinaryOutputArchive.t unit :=
  match o with
  | AddNode => NamedBinaryOutputArchive.addNode ar
  | SetNextName name => NamedBinaryOutputArchive.setNextName name ar
  | SaveBinary data => NamedBinaryOutputArchive.saveBinary data ar
  | FinishNode => NamedBinaryOutputArchive.finishNode ar
  end.

Fixpoint run (ops : list op) (ar : NamedBinaryOutputArchive.t)
  : outcome NamedBinaryOutputArchive.t unit :=
  match ops with
  | [] => ret tt ar
  | o :: ops' => (step o ;;; run ops') ar
  end.

(* ################################################################# *)
(** * Properties of the length loops *)

Import NamedBinaryOutputArchive.

Lemma Some_eq {A : Type} (a b : A) : Some a = Some b -> a = b.
Proof. intros H. now inversion H. Qed.

Lemma fold_put_map (f : N -> byte) (l : list N) (os : list byte) :
  fold_left (fun os i => put (f i) os) l os = os ++ map f l.
Proof.
  revert os; induction l as [|i l IH]; intros os; simpl.
  - now rewrite app_nil_r.
  - rewrite IH. unfold put. now rewrite <- app_assoc.
Qed.

(** A length loop appends 8 bytes to the stream, whatever it holds. *)
Lemma put_loop_app (v : N) (os : list byte) :
  put_loop v os = os ++ put_loop v [].
Proof.
  unfold put_loop.
  rewrite 2 (fold_put_map (fun i => char_of_uint64 (N.land (N.shiftr v (8 * i)) 15))).
  reflexivity.
Qed.

Lemma put_loop_length (v : N) : length (put_loop v []) = 8%nat.
Proof.
  unfold put_loop.
  rewrite (fold_put_map (fun i => char_of_uint64 (N.land (N.shiftr v (8 * i)) 15))).
  reflexivity.
Qed.

(** What a length loop puts on the wire is the encoding of the value with
    the high half of each of its bytes cleared. *)
Lemma put_loop_low_nibbles (v : N) :
  put_loop v [] = le64_spec (N.land v 0x0f0f0f0f0f0f0f0f).
Proof.
  unfold put_loop, le64_spec.
  rewrite (fold_put_map (fun i => char_of_uint64 (N.land (N.shiftr v (8 * i)) 15))).
  change (N.to_nat sizeof_uint64_t) with 8%nat.
  cbn [app map seq].
  repeat (apply f_equal2;
          [ rewrite N.shiftr_land, <- N.land_assoc; reflexivity | ]).
  reflexivity.
Qed.

(** Below 16 the code and the specification encode a length alike. *)
Lemma put_loop_small (v : N) : v < 16 -> put_loop v [] = le64_spec v.
Proof.
  intros Hv. rewrite put_loop_low_nibbles. f_equal.
  assert (Hcases : v = 0 \/ v = 1 \/ v = 2 \/ v = 3 \/ v = 4 \/ v = 5 \/ v = 6
          \/ v = 7 \/ v = 8 \/ v = 9 \/ v = 10 \/ v = 11 \/ v = 12 \/ v = 13
          \/ v = 14 \/ v = 15) by lia.
  repeat (destruct Hcases as [-> | Hcases]; [reflexivity|]).
  now subst.
Qed.

(* ################################################################# *)
(** * The primitive write *)

(** [saveBinary] on an archive with an open node never throws: the node
    takes the pending name, its stream grows by the data, and its size
    becomes the length of the data. *)
Lemma saveBinary_top (data : list byte) (nn : string)
  (node : NamedValue_t.t) (rest : list NamedValue_t.t) (os : list byte) :
  saveBinary data (mk nn (node :: rest) os)
  = Done tt
      (mk EmptyString
         (NamedValue_t.mk (NamedValue_t.itsStream node ++ data)
            (N.of_nat (length data)) nn (NamedValue_t.written node) :: rest)
         os).
Proof.
  unfold saveBinary, sputn; cbn [itsNodes nextName itsStream].
  now rewrite N.eqb_refl.
Qed.

(** Two writes in a row into the same node: the stream of the node holds
    both, its size is the length of the second, and its name is empty. *)
Lemma saveBinary_twice (d1 d2 : list byte) (nn : string)
  (node : NamedValue_t.t) (rest : list NamedValue_t.t) (os : list byte) :
  (saveBinary d1 ;;; saveBinary d2) (mk nn (node :: rest) os)
  = Done tt
      (mk EmptyString
         (NamedValue_t.mk (NamedValue_t.itsStream node ++ d1 ++ d2)
            (N.of_nat (length d2)) EmptyString (NamedValue_t.written node)
          :: rest)
         os).
Proof.
  unfold bind. rewrite saveBinary_top, saveBinary_top.
  cbn [NamedValue_t.itsStream NamedValue_t.written].
  now rewrite <- app_assoc.
Qed.

(** C4. The claim: each primitive write into an open node adds the number
    of bytes appended to the size of the node, so that the size is the
    running total of the writes.  The code assigns: after a write of 4
    bytes and a write of 2 bytes into one node, the stream of the node
    holds 6 bytes and [itsSize] is 2, having gone from 4 down to 2. *)
Theorem saveBinary_size_is_last_write :
  (addNode ;;; saveBinary [x01; x02; x03; x04]) (create [])
  = Done tt
      (mk EmptyString
         [NamedValue_t.mk [x01; x02; x03; x04] 4 EmptyString false] [])
  /\ (addNode ;;; saveBinary [x01; x02; x03; x04] ;;; saveBinary [x05; x06])
       (create [])
     = Done tt
         (mk EmptyString
            [NamedValue_t.mk [x01; x02; x03; x04; x05; x06] 2 EmptyString false]
            [])
  /\ wire ((addNode ;;; saveBinary [x01; x02; x03; x04] ;;; saveBinary [x05; x06]
            ;;; finishNode) (create []))
     = Some (put_loop 10 [] ++ put_loop 0 [] ++ put_loop 2 [] ++ [x01; x02]).
Proof. repeat split. Qed.

(** C5. The claim: the name of a node is assigned once, at its first write,
    and later writes into the node leave it.  The code assigns the pending
    name at every write: the node that the first write named "x" is named
    by the empty string after a second write. *)
Theorem saveBinary_overwrites_name :
  (addNode ;;; setNextName "x" ;;; saveBinary [x01]) (create [])
  = Done tt (mk EmptyString [NamedValue_t.mk [x01] 1 "x" false] [])
  /\ (addNode ;;; setNextName "x" ;;; saveBinary [x01] ;;; saveBinary [x02])
       (create [])
     = Done tt (mk EmptyString [NamedValue_t.mk [x01; x02] 1 EmptyString false] [])
  /\ addNode (create [])
     = Done tt (mk EmptyString [NamedValue_t.mk [] 0 EmptyString false] []).
Proof. repeat split. Qed.

(** C8. The pending name is used once: of two names set in a row, the
    second is the one that the next write binds to its node, and that
    write leaves the pending name empty, so that a write that follows with
    no name set finds the empty name. *)
Theorem setNextName_single_use (n1 n2 : string) (d d' : list byte)
  (nn : string) (node : NamedValue_t.t) (rest : list NamedValue_t.t)
  (os : list byte) :
  (setNextName n1 ;;; setNextName n2 ;;; saveBinary d) (mk nn (node :: rest) os)
  = Done tt
      (mk EmptyString
         (NamedValue_t.mk (NamedValue_t.itsStream node ++ d)
            (N.of_nat (length d)) n2 (NamedValue_t.written node) :: rest)
         os)
  /\ (setNextName n1 ;;; setNextName n2 ;;; saveBinary d ;;; addNode
      ;;; saveBinary d') (mk nn (node :: rest) os)
     = Done tt
         (mk EmptyString
            (NamedValue_t.mk d' (N.of_nat (length d')) EmptyString false
             :: NamedValue_t.mk (NamedValue_t.itsStream node ++ d)
                  (N.of_nat (length d)) n2 (NamedValue_t.written node)
             :: rest)
            os).
Proof.
  split.
  - unfold bind, setNextName; cbn [itsNodes nextName itsStream].
    apply saveBinary_top.
  - unfold bind at 1 2 3, setNextName; cbn [itsNodes nextName itsStream].
    rewrite saveBinary_top.
    unfold bind, addNode; cbn [itsNodes nextName itsStream].
    rewrite saveBinary_top. reflexivity.
Qed.

(* ################################################################# *)
(** * The end of a node *)

(** A node whose size is not zero is framed: the stream gains the three
    lengths, the name and the payload, in the order of the wire layout. *)
Lemma finishNode_emits (nn : string) (node : NamedValue_t.t)
  (rest : list NamedValue_t.t) (os : list byte) :
  NamedValue_t.itsSize node <> 0 ->
  wire (finishNode (mk nn (node :: rest) os))
  = Some (os ++ put_loop (totalSize node) []
             ++ put_loop (size (NamedValue_t.itsName node)) []
             ++ chars (NamedValue_t.itsName node)
             ++ put_loop (NamedValue_t.itsSize node) []
             ++ payload_of node).
Proof.
  intros Hnz. apply N.eqb_neq in Hnz.
  unfold finishNode, sputn, write; cbn [itsNodes nextName itsStream].
  rewrite Hnz.
  rewrite (put_loop_app (NamedValue_t.itsSize node)).
  rewrite (put_loop_app (size (NamedValue_t.itsName node))).
  rewrite (put_loop_app (totalSize node)).
  fold (payload_of node).
  repeat rewrite <- app_assoc.
  now destruct (negb _).
Qed.

(** A node whose size is zero is popped, and nothing else changes. *)
Lemma finishNode_pops_empty (nn : string) (node : NamedValue_t.t)
  (rest : list NamedValue_t.t) (os : list byte) :
  NamedValue_t.itsSize node = 0 ->
  finishNode (mk nn (node :: rest) os) = Done tt (mk nn rest os).
Proof.
  intros Hz. unfold finishNode; cbn [itsNodes nextName itsStream].
  now rewrite Hz.
Qed.

(** A node whose size is below [2^31] and within its stream is popped once
    it is framed. *)
Lemma finishNode_returns (nn : string) (node : NamedValue_t.t)
  (rest : list NamedValue_t.t) (os : list byte) :
  NamedValue_t.itsSize node < 2 ^ 31 ->
  NamedValue_t.itsSize node <= N.of_nat (length (NamedValue_t.itsStream node)) ->
  exists os', finishNode (mk nn (node :: rest) os) = Done tt (mk nn rest os').
Proof.
  intros Hint Hbuf.
  unfold finishNode, sputn; cbn [itsNodes nextName itsStream].
  destruct (NamedValue_t.itsSize node =? 0); [now eexists|].
  rewrite N.min_r by exact Hbuf.
  rewrite length_firstn.
  replace (size_t_of_int _) with (NamedValue_t.itsSize node).
  - rewrite N.eqb_refl. now eexists.
  - unfold size_t_of_int, int_of_streamsize.
    assert (H31 : (2 ^ 31 = 2147483648)%N) by reflexivity.
    assert (Z31 : (2 ^ 31 = 2147483648)%Z) by reflexivity.
    assert (Z32 : (2 ^ 32 = 4294967296)%Z) by reflexivity.
    assert (Z64 : (2 ^ 64 = 18446744073709551616)%Z) by reflexivity.
    rewrite H31 in Hint. rewrite Z31, Z32, Z64.
    set (k := N.of_nat (Nat.min _ _)).
    assert (Hk : k = NamedValue_t.itsSize node) by (subst k; lia).
    rewrite Hk.
    rewrite (Z.mod_small (Z.of_N _) 4294967296) by lia.
    destruct (Z.ltb_spec (Z.of_N (NamedValue_t.itsSize node)) 2147483648);
      [|lia].
    rewrite Z.mod_small by lia. now rewrite N2Z.id.
Qed.

(** The total that [finishNode] computes for a node is the size of the
    node plus the size of its name plus 8, when the sum is within 64 bits. *)
Lemma totalSize_sum (node : NamedValue_t.t) :
  NamedValue_t.itsSize node + size (NamedValue_t.itsName node) + 8 < two64 ->
  totalSize node
  = NamedValue_t.itsSize node + size (NamedValue_t.itsName node) + 8.
Proof.
  intros Hfit. unfold totalSize, sizeof_size_t. now apply N.mod_small.
Qed.





(** C6. The claim: in every Framed Record emitted, the total length is the
    payload length plus the name length plus 8.  [finishNode] computes that
    sum, and then writes each length with the high half of every byte
    cleared, so that the lengths a record declares need not satisfy it: for
    an 8-byte value saved with no name the total computed is 16, which is
    8 + 0 + 8, and the record on the stream declares a total length of 0, a
    name length of 0 and a payload length of 8. *)
Theorem finishNode_declared_lengths_disagree :
  totalSize (NamedValue_t.mk double1 8 EmptyString false) = 8 + 0 + 8
  /\ (exists os,
        save (Arithmetic double1) (create []) = Done tt (create os)
        /\ record_lengths os = (0, 0, 8))
  /\ record_lengths (framed_record_spec 16 EmptyString double1) = (16, 0, 8)
  /\ 0 <> 8 + 0 + 8.
Proof.
  split; [reflexivity|].
  split; [eexists; split; reflexivity|].
  split; [reflexivity|discriminate].
Qed.

(** C7. A node whose size is zero when it ends is popped and leaves the
    output stream as it was; and two empty nodes that begin and end one
    after the other leave the whole archive as it was, so that nothing of
    the first shows between them or after them. *)
Theorem finishNode_elides (nn : string) (node : NamedValue_t.t)
  (rest : list NamedValue_t.t) (os : list byte) :
  NamedValue_t.itsSize node = 0 ->
  finishNode (mk nn (node :: rest) os) = Done tt (mk nn rest os)
  /\ wire (finishNode (mk nn (node :: rest) os)) = Some os
  /\ (addNode ;;; finishNode) (mk nn (node :: rest) os)
     = Done tt (mk nn (node :: rest) os)
  /\ (addNode ;;; finishNode ;;; addNode ;;; finishNode) (mk nn (node :: rest) os)
     = Done tt (mk nn (node :: rest) os)
  /\ (addNode ;;; finishNode ;;; addNode ;;; finishNode ;;; finishNode)
       (mk nn (node :: rest) os)
     = Done tt (mk nn rest os).
Proof.
  intros Hz.
  assert (H := finishNode_pops_empty nn node rest os Hz).
  split; [exact H|].
  split; [now rewrite H|].
  split; [reflexivity|].
  split; [reflexivity|].
  change ((addNode ;;; finishNode ;;; addNode ;;; finishNode ;;; finishNode)
            (mk nn (node :: rest) os))
    with (finishNode (mk nn (node :: rest) os)).
  exact H.
Qed.

Lemma finishNode_elides_witness :
  finishNode (mk "empty" [NamedValue_t.blank] [x07])
  = Done tt (mk "empty" [] [x07])
  /\ wire (finishNode (mk "empty" [NamedValue_t.blank] [x07])) = Some [x07]
  /\ (addNode ;;; finishNode) (mk "empty" [NamedValue_t.blank] [x07])
     = Done tt (mk "empty" [NamedValue_t.blank] [x07])
  /\ (addNode ;;; finishNode ;;; addNode ;;; finishNode)
       (mk "empty" [NamedValue_t.blank] [x07])
     = Done tt (mk "empty" [NamedValue_t.blank] [x07])
  /\ (addNode ;;; finishNode ;;; addNode ;;; finishNode ;;; finishNode)
       (mk "empty" [NamedValue_t.blank] [x07])
     = Done tt (mk "empty" [] [x07]).
Proof.
  apply (finishNode_elides "empty" NamedValue_t.blank [] [x07]).
  reflexivity.
Defined.

(** What the output stream holds after [finishNode] tells whether the node
    was elided: it is unchanged exactly when the size of the node is zero. *)
Lemma finishNode_silent_iff (nn : string) (node : NamedValue_t.t)
  (rest : list NamedValue_t.t) (os : list byte) :
  wire (finishNode (mk nn (node :: rest) os)) = Some os
  <-> NamedValue_t.itsSize node = 0.
Proof.
  split.
  - intros Hw.
    destruct (N.eq_dec (NamedValue_t.itsSize node) 0) as [Hz|Hnz]; [exact Hz|].
    rewrite (finishNode_emits nn node rest os Hnz) in Hw.
    apply Some_eq in Hw. apply (f_equal (@length byte)) in Hw.
    rewrite length_app, length_app, put_loop_length in Hw. lia.
  - intros Hz. now rewrite (finishNode_pops_empty nn node rest os Hz).
Qed.

(** C10. Whether a node is elided depends on its size alone: a node whose
    size is not zero and whose name is empty is framed in full, with a name
    length of 0, written as 8 zero bytes, and with no name byte between it
    and the payload length; and for any node, of any name, the output
    stream is left as it was exactly when the size of the node is zero. *)
Theorem finishNode_frames_unnamed (nn : string) (node : NamedValue_t.t)
  (rest : list NamedValue_t.t) (os : list byte) :
  NamedValue_t.itsSize node <> 0 ->
  NamedValue_t.itsName node = EmptyString ->
  wire (finishNode (mk nn (node :: rest) os))
  = Some (os ++ put_loop ((NamedValue_t.itsSize node + 8) mod two64) []
             ++ put_loop 0 []
             ++ put_loop (NamedValue_t.itsSize node) []
             ++ payload_of node)
  /\ put_loop 0 [] = repeat x00 8
  /\ forall node' : NamedValue_t.t,
       wire (finishNode (mk nn (node' :: rest) os)) = Some os
       <-> NamedValue_t.itsSize node' = 0.
Proof.
  intros Hnz Hname. split; [|split].
  - rewrite (finishNode_emits nn node rest os Hnz).
    unfold totalSize. rewrite Hname.
    change (size EmptyString) with 0. change (chars EmptyString) with (@nil byte).
    rewrite N.add_0_r. reflexivity.
  - reflexivity.
  - intros node'. apply finishNode_silent_iff.
Qed.

Lemma finishNode_frames_unnamed_witness :
  wire (finishNode (mk EmptyString [NamedValue_t.mk double1 8 EmptyString false] []))
  = Some ([] ++ put_loop ((8 + 8) mod two64) [] ++ put_loop 0 []
             ++ put_loop 8 []
             ++ payload_of (NamedValue_t.mk double1 8 EmptyString false))
  /\ put_loop 0 [] = repeat x00 8
  /\ forall node' : NamedValue_t.t,
       wire (finishNode (mk EmptyString [node'] [])) = Some []
       <-> NamedValue_t.itsSize node' = 0.
Proof.
  apply (finishNode_frames_unnamed EmptyString
           (NamedValue_t.mk double1 8 EmptyString false) [] []).
  - discriminate.
  - reflexivity.
Defined.

(* ################################################################# *)
(** * The framing on the wire *)

(** C2. The claim: each length of a Framed Record is written as 8 bytes,
    least significant first, each byte in full.  The code keeps the low 4
    bits of each byte: for an 8-byte value saved with no name the total
    length is 16, whose encoding starts with the byte 16, and the stream
    starts with the byte 0, the record being that of a total length of 0. *)
Theorem finishNode_length_low_nibbles :
  totalSize (NamedValue_t.mk double1 8 EmptyString false) = 16
  /\ save (Arithmetic double1) (create [])
     = Done tt (create (framed_record_spec 0 EmptyString double1))
  /\ le64_spec 16 = [x10; x00; x00; x00; x00; x00; x00; x00]
  /\ put_loop 16 [] = [x00; x00; x00; x00; x00; x00; x00; x00]
  /\ wire (save (Arithmetic double1) (create []))
     <> Some (framed_record_spec 16 EmptyString double1).
Proof.
  repeat split. discriminate.
Qed.

(** C3, as the specification states it: the 4-byte integer 42 named "x"
    would be framed with a total length of 20.  It is not. *)
Lemma save_named_int42_not_20 :
  wire (save named_int42 (create []))
  <> Some (framed_record_spec 20 "x" int42).
Proof. discriminate. Qed.

(** C3, amended.  Saving the 4-byte integer 42 named "x" at the top level
    puts on the wire the total length 13 (4 of payload, 1 of name and 8),
    the name length 1, the byte of "x", the payload length 4 and the 4 bytes
    of 42; each length is laid out on 8 bytes, least significant first. *)
Theorem save_named_int42 :
  save named_int42 (create [])
  = Done tt (create (framed_record_spec 13 "x" int42))
  /\ framed_record_spec 13 "x" int42
     = [x0d; x00; x00; x00; x00; x00; x00; x00;
        x01; x00; x00; x00; x00; x00; x00; x00;
        x78;
        x04; x00; x00; x00; x00; x00; x00; x00;
        x2a; x00; x00; x00].
Proof. split; reflexivity. Qed.


(* ################################################################# *)
(** * The reader *)

Import NamedBinaryInputArchive.

(** C9. [loadBinary] returns the [size] next bytes of the stream when the
    stream holds as many; it throws exactly when the stream holds fewer,
    and the message of the exception gives the count asked for and the
    count read. *)
Theorem loadBinary_short_read (size : N) (ar : NamedBinaryInputArchive.t) :
  let avail := N.of_nat (length (itsStream ar)) in
  (size <= avail ->
   loadBinary size ar
   = Done (firstn (N.to_nat size) (itsStream ar))
       (mk (skipn (N.to_nat size) (itsStream ar)))
   /\ N.of_nat (length (firstn (N.to_nat size) (itsStream ar))) = size)
  /\ (avail < size ->
      loadBinary size ar
      = Thrown
          (mkException ("Failed to read " ++ to_string size
             ++ " bytes from input stream! Read " ++ to_string avail)%string)
          (mk []))
  /\ ((exists e ar', loadBinary size ar = Thrown e ar') <-> avail < size).
Proof.
  intros avail. unfold loadBinary, sgetn.
  assert (Hlen : N.of_nat (length (firstn (N.to_nat size) (itsStream ar)))
                 = N.min size avail).
  { rewrite length_firstn. subst avail. lia. }
  rewrite Hlen.
  destruct (N.le_gt_cases size avail) as [Hle|Hgt].
  - rewrite N.min_l by exact Hle. rewrite N.eqb_refl. cbn [negb].
    split; [intros _; split; reflexivity|].
    split; [lia|].
    split; [intros (e & ar' & H); discriminate H | lia].
  - rewrite N.min_r by lia.
    assert (Hneq : (avail =? size) = false) by (apply N.eqb_neq; lia).
    rewrite Hneq. cbn [negb].
    split; [lia|].
    assert (Hskip : skipn (N.to_nat size) (itsStream ar) = [])
      by (apply skipn_all2; subst avail; lia).
    rewrite Hskip.
    split; [intros _; reflexivity|].
    split; [intros _; exact Hgt | intros _; eauto].
Qed.

Lemma loadBinary_short_read_witness :
  (loadBinary 2 (mk [x01; x02; x03]) = Done [x01; x02] (mk [x03])
   /\ N.of_nat (length [x01; x02]) = 2)
  /\ loadBinary 4 (mk [x01; x02; x03])
     = Thrown
         (mkException "Failed to read 4 bytes from input stream! Read 3")
         (mk []).
Proof.
  split.
  - apply (proj1 (loadBinary_short_read 2 (mk [x01; x02; x03]))).
    discriminate.
  - apply (proj1 (proj2 (loadBinary_short_read 4 (mk [x01; x02; x03])))).
    reflexivity.
Defined.


(* ################################################################# *)
(** * Writing, then reading *)

(** C1. The claim: the primitive values written are the values read back,
    in the same order and with the same types, from the stream produced.
    The writer frames each value and the reader reads the stream as it
    comes: for the integer 42 named "x", the 4 bytes loaded are the first 4
    bytes of the total length, which is 13. *)
Theorem load_after_save_named_int42 :
  exists (os rest : list byte),
    save named_int42 (NamedBinaryOutputArchive.create [])
    = Done tt (NamedBinaryOutputArchive.create os)
    /\ load (type_of named_int42) (NamedBinaryInputArchive.mk os)
       = Done [[x0d; x00; x00; x00]] (NamedBinaryInputArchive.mk rest)
    /\ primitives named_int42 = [[x2a; x00; x00; x00]]
    /\ [[x0d; x00; x00; x00]] <> primitives named_int42.
Proof.
  eexists. eexists.
  split; [reflexivity|].
  split; [reflexivity|].
  split; [reflexivity|discriminate].
Qed.

(* ################################################################# *)
(** * The writer under the call operator *)

Import NamedBinaryOutputArchive.

Lemma chars_length (s : string) : length (chars s) = String.length s.
Proof.
  unfold chars, list_byte_of_string. rewrite length_map.
  induction s as [|c s IH]; simpl; [reflexivity | now rewrite IH].
Qed.

(** The narrowing to [int] and back is the identity below [2^31]. *)
Lemma int_round_trip (n : N) :
  n < 2 ^ 31 -> size_t_of_int (int_of_streamsize n) = n.
Proof.
  intros Hn. unfold size_t_of_int, int_of_streamsize.
  assert (H31 : (2 ^ 31 = 2147483648)%N) by reflexivity.
  assert (Z31 : (2 ^ 31 = 2147483648)%Z) by reflexivity.
  assert (Z32 : (2 ^ 32 = 4294967296)%Z) by reflexivity.
  assert (Z64 : (2 ^ 64 = 18446744073709551616)%Z) by reflexivity.
  rewrite H31 in Hn. rewrite Z31, Z32, Z64.
  rewrite (Z.mod_small (Z.of_N n) 4294967296) by lia.
  destruct (Z.ltb_spec (Z.of_N n) 2147483648); [|lia].
  rewrite Z.mod_small by lia. now rewrite N2Z.id.
Qed.

(** From [2^31] up to [2^63] the narrowing to [int] and back changes the
    count. *)
Lemma int_round_trip_large (n : N) :
  2 ^ 31 <= n -> n < 2 ^ 63 -> size_t_of_int (int_of_streamsize n) <> n.
Proof.
  intros Hlo Hhi. unfold size_t_of_int, int_of_streamsize.
  assert (H31 : (2 ^ 31 = 2147483648)%N) by reflexivity.
  assert (H63 : (2 ^ 63 = 9223372036854775808)%N) by reflexivity.
  assert (Z31 : (2 ^ 31 = 2147483648)%Z) by reflexivity.
  assert (Z32 : (2 ^ 32 = 4294967296)%Z) by reflexivity.
  assert (Z64 : (2 ^ 64 = 18446744073709551616)%Z) by reflexivity.
  rewrite H31 in Hlo. rewrite H63 in Hhi. rewrite Z31, Z32, Z64.
  assert (Hm := Z.mod_pos_bound (Z.of_N n) 4294967296 eq_refl).
  set (m := (Z.of_N n mod 4294967296)%Z) in *.
  destruct (Z.ltb_spec m 2147483648) as [Hlt|Hge].
  - rewrite Z.mod_small by lia. lia.
  - replace ((m - 4294967296) mod 18446744073709551616)%Z
      with (m - 4294967296 + 18446744073709551616)%Z.
    + lia.
    + apply Z.mod_unique with (q := (-1)%Z); lia.
Qed.

(** A node that is not empty, within its stream and within an [int], is
    framed and popped. *)
Lemma finishNode_done (nn : string) (node : NamedValue_t.t)
  (rest : list NamedValue_t.t) (os : list byte) :
  NamedValue_t.itsSize node <> 0 ->
  NamedValue_t.itsSize node < 2 ^ 31 ->
  node_ok node ->
  finishNode (mk nn (node :: rest) os)
  = Done tt (mk nn rest (os ++ record_of node)).
Proof.
  intros Hnz Hint Hok.
  assert (Hw := finishNode_emits nn node rest os Hnz).
  destruct (finishNode_returns nn node rest os Hint Hok) as [os' Hd].
  rewrite Hd in Hw |- *. apply Some_eq in Hw. cbn in Hw.
  rewrite Hw. reflexivity.
Qed.

(** The payload of a node filled by one write is the data written. *)
Lemma payload_of_one_write (data : list byte) (nn : string) (w : bool) :
  payload_of (NamedValue_t.mk data (N.of_nat (length data)) nn w) = data.
Proof.
  unfold payload_of; cbn [NamedValue_t.itsStream NamedValue_t.itsSize].
  rewrite N.min_id, Nat2N.id. apply firstn_all.
Qed.

(** One primitive under the call operator, on any archive. *)
Lemma call_saveBinary (data : list byte) (nn : string)
  (rest : list NamedValue_t.t) (os : list byte) :
  fits_int data ->
  call (saveBinary data) (mk nn rest os)
  = Done tt
      (mk EmptyString rest
         (os ++ match data with
                | [] => []
                | _ :: _ =>
                    record_of (NamedValue_t.mk data (N.of_nat (length data)) nn false)
                end)).
Proof.
  intros Hfit. unfold call, prologue, epilogue, bind, addNode.
  cbn [itsNodes nextName itsStream].
  rewrite saveBinary_top. cbn [NamedValue_t.itsStream NamedValue_t.written NamedValue_t.blank app].
  destruct data as [|b data].
  - rewrite finishNode_pops_empty by reflexivity. now rewrite app_nil_r.
  - apply finishNode_done.
    + cbn [NamedValue_t.itsSize length]. lia.
    + exact Hfit.
    + unfold node_ok; cbn [NamedValue_t.itsSize NamedValue_t.itsStream]. lia.
Qed.

(** X1. An arithmetic value or a binary data of at least one byte, saved
    through the call operator on any archive, is framed whole: the stream
    gains the total length, the length of the pending name, the pending
    name, the length of the data and the data itself; the pending name is
    cleared and the stack of nodes is as it was. *)
Theorem save_primitive_framed (t : list byte) (nn : string)
  (rest : list NamedValue_t.t) (os : list byte) :
  t <> [] ->
  fits_int t ->
  save (Arithmetic t) (mk nn rest os)
  = Done tt
      (mk EmptyString rest
         (os ++ put_loop ((N.of_nat (length t) + size nn + 8) mod two64) []
             ++ put_loop (size nn) [] ++ chars nn
             ++ put_loop (N.of_nat (length t)) [] ++ t))
  /\ save (BinaryData t) (mk nn rest os) = save (Arithmetic t) (mk nn rest os).
Proof.
  intros Hne Hfit. split; [|reflexivity].
  change (save (Arithmetic t) (mk nn rest os))
    with (call (saveBinary t) (mk nn rest os)).
  rewrite call_saveBinary by exact Hfit.
  destruct t as [|b t]; [contradiction|].
  unfold record_of, totalSize.
  rewrite payload_of_one_write. reflexivity.
Qed.

Lemma save_primitive_framed_witness :
  save (Arithmetic double1) (mk "d" [NamedValue_t.blank] [xff])
  = Done tt
      (mk EmptyString [NamedValue_t.blank]
         ([xff] ++ put_loop ((8 + size "d" + 8) mod two64) []
             ++ put_loop (size "d") [] ++ chars "d"
             ++ put_loop 8 [] ++ double1))
  /\ save (BinaryData double1) (mk "d" [NamedValue_t.blank] [xff])
     = save (Arithmetic double1) (mk "d" [NamedValue_t.blank] [xff]).
Proof.
  apply (save_primitive_framed double1 "d" [NamedValue_t.blank] [xff]).
  - discriminate.
  - reflexivity.
Defined.

(** X2. A binary data of no byte, or an arithmetic value of no byte, saved
    through the call operator writes nothing to the stream, and yet uses up
    the pending name: the name set for it is dropped. *)
Theorem save_empty_primitive_drops_name (nn : string)
  (rest : list NamedValue_t.t) (os : list byte) :
  save (BinaryData []) (mk nn rest os) = Done tt (mk EmptyString rest os)
  /\ save (NameValuePair nn (BinaryData [])) (mk EmptyString rest os)
     = Done tt (mk EmptyString rest os).
Proof. split; reflexivity. Qed.

(** X3. A name set for a value that writes no byte and calls no primitive
    (a class with no member) stays pending after the value is elided, and
    the next primitive saved is framed under that name. *)
Theorem name_of_elided_class_passes_on (n : string) (t : list byte)
  (nn : string) (rest : list NamedValue_t.t) (os : list byte) :
  t <> [] ->
  fits_int t ->
  save (NameValuePair n (Composite [])) (mk nn rest os)
  = Done tt (mk n rest os)
  /\ (save (NameValuePair n (Composite [])) ;;; save (Arithmetic t))
       (mk nn rest os)
     = Done tt
         (mk EmptyString rest
            (os ++ put_loop ((N.of_nat (length t) + size n + 8) mod two64) []
                ++ put_loop (size n) [] ++ chars n
                ++ put_loop (N.of_nat (length t)) [] ++ t)).
Proof.
  intros Hne Hfit. split; [reflexivity|].
  unfold bind at 1.
  change (save (NameValuePair n (Composite [])) (mk nn rest os))
    with (Done tt (mk n rest os)).
  apply (save_primitive_framed t n rest os Hne Hfit).
Qed.

Lemma name_of_elided_class_passes_on_witness :
  save (NameValuePair "empty" (Composite [])) (create [])
  = Done tt (mk "empty" [] [])
  /\ (save (NameValuePair "empty" (Composite [])) ;;; save (Arithmetic int42))
       (create [])
     = Done tt
         (mk EmptyString []
            ([] ++ put_loop ((4 + size "empty" + 8) mod two64) []
                ++ put_loop (size "empty") [] ++ chars "empty"
                ++ put_loop 4 [] ++ int42)).
Proof.
  apply (name_of_elided_class_passes_on "empty" int42 EmptyString [] []).
  - discriminate.
  - reflexivity.
Defined.

(** X4. A name-value pair of a primitive of at least one byte is framed
    under the name of the pair, whatever name was pending before. *)
Theorem save_named_primitive (n : string) (t : list byte) (nn : string)
  (rest : list NamedValue_t.t) (os : list byte) :
  t <> [] ->
  fits_int t ->
  save (NameValuePair n (Arithmetic t)) (mk nn rest os)
  = Done tt
      (mk EmptyString rest
         (os ++ put_loop ((N.of_nat (length t) + size n + 8) mod two64) []
             ++ put_loop (size n) [] ++ chars n
             ++ put_loop (N.of_nat (length t)) [] ++ t)).
Proof.
  intros Hne Hfit.
  assert (H := proj1 (save_primitive_framed t n (NamedValue_t.blank :: rest) os
                        Hne Hfit)).
  change (save (NameValuePair n (Arithmetic t)) (mk nn rest os))
    with (match save (Arithmetic t) (mk n (NamedValue_t.blank :: rest) os) with
          | Done _ s' => epilogue s'
          | Thrown e s' => Thrown e s'
          | Undefined => Undefined
          end).
  rewrite H. reflexivity.
Qed.

Lemma save_named_primitive_witness :
  save (NameValuePair "x" (Arithmetic int42)) (mk "old" [] [])
  = Done tt
      (mk EmptyString []
         ([] ++ put_loop ((4 + size "x" + 8) mod two64) []
             ++ put_loop (size "x") [] ++ chars "x"
             ++ put_loop 4 [] ++ int42)).
Proof.
  apply (save_named_primitive "x" int42 "old" [] []).
  - discriminate.
  - reflexivity.
Defined.

(** X5. A size tag is saved as the arithmetic value of its size: the two
    leave the same archive behind. *)
Theorem save_size_tag_as_arithmetic (s : list byte) (nn : string)
  (rest : list NamedValue_t.t) (os : list byte) :
  fits_int s ->
  save (SizeTag s) (mk nn rest os) = save (Arithmetic s) (mk nn rest os).
Proof.
  intros Hfit.
  change (save (Arithmetic s) (mk nn rest os))
    with (call (saveBinary s) (mk nn rest os)).
  change (save (SizeTag s) (mk nn rest os))
    with (match call (saveBinary s) (mk nn (NamedValue_t.blank :: rest) os) with
          | Done _ s' => epilogue s'
          | Thrown e s' => Thrown e s'
          | Undefined => Undefined
          end).
  rewrite 2 call_saveBinary by exact Hfit. reflexivity.
Qed.

Lemma save_size_tag_as_arithmetic_witness :
  save (SizeTag double1) (mk "n" [] [x01])
  = save (Arithmetic double1) (mk "n" [] [x01]).
Proof.
  apply (save_size_tag_as_arithmetic double1 "n" [] [x01]). reflexivity.
Defined.

(* ################################################################# *)
(** * Whole values *)

(** Induction on values, with the members of a class under [Forall]. *)
Lemma value_induction (P : value -> Prop) :
  (forall t, P (Arithmetic t)) ->
  (forall name v, P v -> P (NameValuePair name v)) ->
  (forall s, P (SizeTag s)) ->
  (forall data, P (BinaryData data)) ->
  (forall members, Forall P members -> P (Composite members)) ->
  forall v, P v.
Proof.
  intros HA HN HS HB HC.
  fix IH 1. intros [t|name v|s|data|members].
  - apply HA.
  - apply HN, IH.
  - apply HS.
  - apply HB.
  - apply HC. induction members as [|m ms IHms]; constructor.
    + apply IH.
    + exact IHms.
Qed.

Lemma save_Composite (members : list value) (ar : NamedBinaryOutputArchive.t) :
  save (Composite members) ar = call (save_each members) ar.
Proof.
  cbn [save]. unfold call, bind, prologue, addNode.
  assert (Heach : forall ms ar',
    (fix save_members (vs : list value) :=
       match vs with
       | [] => ret tt
       | m :: vs' => save m ;;; save_members vs'
       end) ms ar' = save_each ms ar').
  { induction ms as [|m ms IH]; intros ar'; cbn [save_each]; [reflexivity|].
    unfold bind. destruct (save m ar'); try reflexivity. apply IH. }
  now rewrite Heach.
Qed.

Lemma saves_call (body : NamedBinaryOutputArchive.t ->
                         outcome NamedBinaryOutputArchive.t unit) :
  (forall nn, exists nn' bytes, forall rest os,
      body (mk nn rest os) = Done tt (mk nn' rest (os ++ bytes))) ->
  forall nn, exists nn' bytes, forall rest os,
    call body (mk nn rest os) = Done tt (mk nn' rest (os ++ bytes)).
Proof.
  intros Hbody nn. destruct (Hbody nn) as (nn' & bytes & H).
  exists nn', bytes. intros rest os.
  unfold call, prologue, epilogue, bind, addNode.
  cbn [itsNodes nextName itsStream]. rewrite H.
  now apply finishNode_pops_empty.
Qed.

Lemma saves_saveBinary (data : list byte) :
  fits_int data -> saves (Arithmetic data).
Proof.
  intros Hfit nn. eexists. eexists. intros rest os.
  change (save (Arithmetic data) (mk nn rest os))
    with (call (saveBinary data) (mk nn rest os)).
  now rewrite call_saveBinary.
Qed.

Lemma saves_each_of (vs : list value) :
  Forall saves vs -> saves_each vs.
Proof.
  induction 1 as [|m ms Hm _ IH]; intros nn.
  - exists nn, []. intros rest os. cbn. unfold ret. now rewrite app_nil_r.
  - destruct (Hm nn) as (nn1 & b1 & H1).
    destruct (IH nn1) as (nn2 & b2 & H2).
    exists nn2, (b1 ++ b2). intros rest os.
    cbn [save_each]. unfold bind. rewrite H1, H2. now rewrite app_assoc.
Qed.

Lemma saves_of_fits (v : value) :
  Forall fits_int (primitives v) -> saves v.
Proof.
  induction v as [t|name v IH|s|data|members IH] using value_induction;
    cbn [primitives]; intros Hfit.
  - apply saves_saveBinary. now inversion Hfit.
  - refine (saves_call (setNextName name ;;; save v) _). intros nn.
    destruct (IH Hfit name) as (nn' & bytes & H).
    exists nn', bytes. intros rest os.
    unfold bind, setNextName. cbn [itsNodes nextName itsStream]. apply H.
  - refine (saves_call (call (saveBinary s)) _).
    apply (saves_saveBinary s). now inversion Hfit.
  - apply (saves_saveBinary data). now inversion Hfit.
  - intros nn.
    assert (Heach : saves_each members).
    { apply saves_each_of. induction IH as [|m ms Hm _ IHms]; constructor.
      - apply Hm. cbn [flat_map] in Hfit. apply Forall_app in Hfit. tauto.
      - apply IHms. cbn [flat_map] in Hfit. apply Forall_app in Hfit. tauto. }
    destruct (saves_call (save_each members) Heach nn) as (nn' & bytes & H).
    exists nn', bytes. intros rest os. rewrite save_Composite. apply H.
Qed.

(** X6. On streams that accept every byte written to them (the
    convention of this development for the output stream and the streams
    of the nodes), saving a value whose primitives each fit an [int]
    returns, on any archive: no node is asked of an empty stack and the
    count that [finishNode] compares is the size of the node.  It leaves
    the stack of nodes as it found it and adds bytes at the end of the
    stream, and the bytes added and the pending name left depend only on
    the value and on the name that was pending, not on the open nodes nor
    on the stream. *)
Theorem save_balanced (v : value) (nn : string) :
  Forall fits_int (primitives v) ->
  exists (nn' : string) (bytes : list byte),
    forall (rest : list NamedValue_t.t) (os : list byte),
      save v (mk nn rest os) = Done tt (mk nn' rest (os ++ bytes)).
Proof.
  intros Hfit. exact (saves_of_fits v Hfit nn).
Qed.

Lemma save_balanced_witness :
  exists (nn' : string) (bytes : list byte),
    forall (rest : list NamedValue_t.t) (os : list byte),
      save (Composite [named_int42; SizeTag double1; BinaryData []])
        (mk "c" rest os)
      = Done tt (mk nn' rest (os ++ bytes)).
Proof.
  apply (save_balanced (Composite [named_int42; SizeTag double1; BinaryData []])
           "c").
  repeat constructor.
Defined.

(** X7. A class adds nothing of its own to the stream: saving it is saving
    its members one after the other, so that the records of the members
    follow each other on the wire and none holds another. *)
Theorem save_composite_flat (members : list value) (nn : string)
  (rest : list NamedValue_t.t) (os : list byte) :
  Forall fits_int (flat_map primitives members) ->
  save (Composite members) (mk nn rest os) = save_each members (mk nn rest os).
Proof.
  intros Hfit.
  assert (Heach : saves_each members).
  { apply saves_each_of. induction members as [|m ms IH]; constructor.
    - apply saves_of_fits. cbn [flat_map] in Hfit.
      apply Forall_app in Hfit. tauto.
    - apply IH. cbn [flat_map] in Hfit. apply Forall_app in Hfit. tauto. }
  destruct (Heach nn) as (nn' & bytes & H).
  rewrite save_Composite. unfold call, prologue, epilogue, bind, addNode.
  cbn [itsNodes nextName itsStream]. rewrite 2 H.
  now apply finishNode_pops_empty.
Qed.

Lemma save_composite_flat_witness :
  save (Composite [named_int42; Arithmetic double1]) (mk "c" [] [])
  = save_each [named_int42; Arithmetic double1] (mk "c" [] []).
Proof.
  apply (save_composite_flat [named_int42; Arithmetic double1] "c" [] []).
  repeat constructor.
Defined.

(* ################################################################# *)
(** * Runs of calls *)

Lemma step_node_ok (o : op) (ar ar' : NamedBinaryOutputArchive.t) :
  Forall node_ok (itsNodes ar) ->
  state_of (step o ar) = Some ar' ->
  Forall node_ok (itsNodes ar').
Proof.
  intros Hok Hs. destruct ar as [nn nodes os]. cbn [itsNodes] in Hok.
  destruct o as [|name|data|]; cbn [step] in Hs.
  - apply Some_eq in Hs. subst ar'. cbn [itsNodes]. constructor; [|exact Hok].
    unfold node_ok. cbn. lia.
  - apply Some_eq in Hs. now subst ar'.
  - destruct nodes as [|node rest]; [discriminate Hs|].
    rewrite saveBinary_top in Hs. apply Some_eq in Hs. subst ar'.
    cbn [itsNodes]. constructor; [|now inversion Hok].
    unfold node_ok. cbn [NamedValue_t.itsSize NamedValue_t.itsStream].
    rewrite length_app. lia.
  - destruct nodes as [|node rest]; [discriminate Hs|].
    unfold finishNode, sputn in Hs. cbn [itsNodes nextName itsStream] in Hs.
    destruct (NamedValue_t.itsSize node =? 0).
    + apply Some_eq in Hs. subst ar'. now inversion Hok.
    + destruct (negb _); apply Some_eq in Hs; subst ar'; cbn [itsNodes];
        [exact Hok | now inversion Hok].
Qed.

Lemma step_appends (o : op) (ar ar' : NamedBinaryOutputArchive.t) :
  state_of (step o ar) = Some ar' ->
  exists bytes, itsStream ar' = itsStream ar ++ bytes.
Proof.
  intros Hs. destruct ar as [nn nodes os].
  destruct o as [|name|data|]; cbn [step] in Hs.
  - apply Some_eq in Hs. subst ar'. exists []. cbn. now rewrite app_nil_r.
  - apply Some_eq in Hs. subst ar'. exists []. cbn. now rewrite app_nil_r.
  - destruct nodes as [|node rest]; [discriminate Hs|].
    rewrite saveBinary_top in Hs. apply Some_eq in Hs. subst ar'.
    exists []. cbn. now rewrite app_nil_r.
  - destruct nodes as [|node rest]; [discriminate Hs|].
    destruct (N.eq_dec (NamedValue_t.itsSize node) 0) as [Hz|Hnz].
    + rewrite finishNode_pops_empty in Hs by exact Hz.
      apply Some_eq in Hs. subst ar'. exists []. cbn. now rewrite app_nil_r.
    + assert (Hw := finishNode_emits nn node rest os Hnz).
      unfold wire in Hw. rewrite Hs in Hw. cbn [option_map] in Hw.
      apply Some_eq in Hw. eexists. cbn [itsStream]. exact Hw.
Qed.

Lemma run_cons (o : op) (ops : list op) (ar ar' : NamedBinaryOutputArchive.t) :
  state_of (run (o :: ops) ar) = Some ar' ->
  state_of (step o ar) = Some ar'
  \/ exists ar1, state_of (step o ar) = Some ar1
                 /\ state_of (run ops ar1) = Some ar'.
Proof.
  cbn [run]. unfold bind. destruct (step o ar) as [[] ar1|e ar1|].
  - intros H. right. now exists ar1.
  - intros H. now left.
  - discriminate.
Qed.

(** X8. In any archive reached by calls of [addNode], [setNextName],
    [saveBinary] and [finishNode], from an archive where it holds (a new
    archive has no node), the size of every open node is at most the count
    of bytes in the stream of the node; so the payload that [finishNode]
    writes for such a node is [itsSize] bytes long. *)
Theorem run_sizes_within_streams (ops : list op)
  (ar ar' : NamedBinaryOutputArchive.t) :
  Forall node_ok (itsNodes ar) ->
  state_of (run ops ar) = Some ar' ->
  Forall node_ok (itsNodes ar')
  /\ forall node, In node (itsNodes ar') ->
       N.of_nat (length (payload_of node)) = NamedValue_t.itsSize node.
Proof.
  intros Hok Hrun.
  assert (Hinv : Forall node_ok (itsNodes ar')).
  { revert ar Hok Hrun. induction ops as [|o ops IH]; intros ar Hok Hrun.
    - cbn in Hrun. apply Some_eq in Hrun. now subst.
    - destruct (run_cons o ops ar ar' Hrun) as [Hs|(ar1 & Hs & Hr)].
      + exact (step_node_ok o ar ar' Hok Hs).
      + apply (IH ar1); [exact (step_node_ok o ar ar1 Hok Hs) | exact Hr]. }
  split; [exact Hinv|].
  intros node Hin. rewrite Forall_forall in Hinv. specialize (Hinv node Hin).
  unfold node_ok in Hinv. unfold payload_of.
  rewrite length_firstn. lia.
Qed.

Lemma run_sizes_within_streams_witness :
  Forall node_ok
    (itsNodes (mk EmptyString [NamedValue_t.mk [x01; x02; x03; x04; x05; x06] 2
                                 EmptyString false] []))
  /\ forall node,
       In node (itsNodes (mk EmptyString
                            [NamedValue_t.mk [x01; x02; x03; x04; x05; x06] 2
                               EmptyString false] [])) ->
       N.of_nat (length (payload_of node)) = NamedValue_t.itsSize node.
Proof.
  apply (run_sizes_within_streams
           [AddNode; SaveBinary [x01; x02; x03; x04]; SaveBinary [x05; x06]]
           (create [])).
  - constructor.
  - reflexivity.
Defined.

(** X9. The output stream only grows: whatever calls are made, and whether
    they return or one of them throws, the bytes that the stream held
    before are a prefix of the bytes it holds after. *)
Theorem run_appends (ops : list op) (ar ar' : NamedBinaryOutputArchive.t) :
  state_of (run ops ar) = Some ar' ->
  exists bytes, itsStream ar' = itsStream ar ++ bytes.
Proof.
  revert ar. induction ops as [|o ops IH]; intros ar Hrun.
  - cbn in Hrun. apply Some_eq in Hrun. subst. exists [].
    now rewrite app_nil_r.
  - destruct (run_cons o ops ar ar' Hrun) as [Hs|(ar1 & Hs & Hr)].
    + exact (step_appends o ar ar' Hs).
    + destruct (step_appends o ar ar1 Hs) as [b1 H1].
      destruct (IH ar1 Hr) as [b2 H2].
      exists (b1 ++ b2). now rewrite H2, H1, app_assoc.
Qed.

Lemma run_appends_witness :
  exists bytes,
    itsStream (mk EmptyString [] ([xff] ++ record_of
                 (NamedValue_t.mk int42 4 "x" false)))
    = itsStream (create [xff]) ++ bytes.
Proof.
  apply (run_appends [AddNode; SetNextName "x"; SaveBinary int42; FinishNode]
           (create [xff])).
  reflexivity.
Defined.

(* ################################################################# *)
(** * Sizes at the end of a node *)

(** X10. A node of [2^31] bytes or more (and below [2^63]) is written to
    the stream in full, and then [finishNode] throws, because the count of
    bytes written is held in an [int]; the node stays on the stack, and the
    message gives its size and the count as the [int] holds it. *)
Theorem finishNode_large_payload_throws (nn : string) (node : NamedValue_t.t)
  (rest : list NamedValue_t.t) (os : list byte) :
  2 ^ 31 <= NamedValue_t.itsSize node ->
  NamedValue_t.itsSize node < 2 ^ 63 ->
  node_ok node ->
  finishNode (mk nn (node :: rest) os)
  = Thrown
      (mkException
         ("Failed to write " ++ to_string (NamedValue_t.itsSize node)
          ++ " bytes to output stream! Wrote "
          ++ to_string_int (int_of_streamsize (NamedValue_t.itsSize node)))%string)
      (mk nn (node :: rest) (os ++ record_of node)).
Proof.
  intros Hlo Hhi Hok.
  assert (Hnz : NamedValue_t.itsSize node <> 0).
  { intros Hz. rewrite Hz in Hlo. now apply Hlo. }
  assert (Hw := finishNode_emits nn node rest os Hnz).
  unfold finishNode, sputn in Hw |- *.
  cbn [itsNodes nextName itsStream] in Hw |- *.
  apply N.eqb_neq in Hnz. rewrite Hnz in Hw |- *.
  unfold node_ok in Hok.
  assert (Hcount :
    N.of_nat (length (firstn (N.to_nat (N.min (N.of_nat (length (NamedValue_t.itsStream node)))
                                          (NamedValue_t.itsSize node)))
                        (NamedValue_t.itsStream node)))
    = NamedValue_t.itsSize node).
  { rewrite length_firstn. lia. }
  rewrite Hcount in Hw |- *.
  assert (Hne := int_round_trip_large _ Hlo Hhi).
  apply N.eqb_neq in Hne. rewrite Hne in Hw |- *. cbn [negb] in Hw |- *.
  cbn [wire state_of option_map itsStream] in Hw. apply Some_eq in Hw.
  now rewrite Hw.
Qed.

Lemma finishNode_large_payload_throws_witness :
  finishNode (mk EmptyString [gib2_node] [])
  = Thrown
      (mkException
         ("Failed to write " ++ to_string (NamedValue_t.itsSize gib2_node)
          ++ " bytes to output stream! Wrote "
          ++ to_string_int (int_of_streamsize (NamedValue_t.itsSize gib2_node)))%string)
      (mk EmptyString [gib2_node] ([] ++ record_of gib2_node)).
Proof.
  apply (finishNode_large_payload_throws EmptyString gib2_node [] []).
  - apply N.le_refl.
  - reflexivity.
  - unfold node_ok, gib2_node.
    cbn [NamedValue_t.itsSize NamedValue_t.itsStream].
    rewrite repeat_length, N2Nat.id. apply N.le_refl.
Defined.

(** X11. The record of a node whose size is within its stream takes, on
    the wire, the size of the node plus the size of its name plus 24
    bytes: the three lengths of 8 bytes each, the name and the payload. *)
Theorem finishNode_record_length (nn : string) (node : NamedValue_t.t)
  (rest : list NamedValue_t.t) (os : list byte) :
  NamedValue_t.itsSize node <> 0 ->
  node_ok node ->
  exists rec,
    wire (finishNode (mk nn (node :: rest) os)) = Some (os ++ rec)
    /\ N.of_nat (length rec)
       = NamedValue_t.itsSize node + size (NamedValue_t.itsName node) + 24.
Proof.
  intros Hnz Hok. exists (record_of node). split.
  - exact (finishNode_emits nn node rest os Hnz).
  - unfold record_of, payload_of, node_ok, size in *.
    rewrite !length_app, !put_loop_length, chars_length, length_firstn. lia.
Qed.

Lemma finishNode_record_length_witness :
  exists rec,
    wire (finishNode (mk EmptyString [NamedValue_t.mk int42 4 "x" false] []))
    = Some ([] ++ rec)
    /\ N.of_nat (length rec) = 4 + size "x" + 24.
Proof.
  apply (finishNode_record_length EmptyString
           (NamedValue_t.mk int42 4 "x" false) [] []).
  - discriminate.
  - unfold node_ok. cbn. lia.
Defined.

(** X12. A length loop of [finishNode] puts on the stream the 8-byte
    little-endian layout of the value with the high 4 bits of each of its
    bytes cleared; two values that agree on the low 4 bits of each byte
    are written alike. *)
Theorem length_loop_low_nibbles (v w : N) (os : list byte) :
  put_loop v os = os ++ le64_spec (N.land v 0x0f0f0f0f0f0f0f0f)
  /\ (N.land v 0x0f0f0f0f0f0f0f0f = N.land w 0x0f0f0f0f0f0f0f0f ->
      put_loop v os = put_loop w os).
Proof.
  split.
  - now rewrite put_loop_app, put_loop_low_nibbles.
  - intros H. rewrite (put_loop_app v), (put_loop_app w).
    now rewrite 2 put_loop_low_nibbles, H.
Qed.

Lemma length_loop_low_nibbles_witness :
  put_loop 16 [xff] = [xff] ++ le64_spec (N.land 16 0x0f0f0f0f0f0f0f0f)
  /\ put_loop 16 [xff] = put_loop 32 [xff].
Proof.
  split.
  - apply (proj1 (length_loop_low_nibbles 16 32 [xff])).
  - apply (proj2 (length_loop_low_nibbles 16 32 [xff])). reflexivity.
Defined.

(** X13. A length below 16 is put on the stream as its 8-byte
    little-endian layout: its value in the first byte and 7 zero bytes. *)
Theorem length_loop_below_16 (v : N) (os : list byte) :
  v < 16 ->
  put_loop v os = os ++ le64_spec v
  /\ le64_spec v = char_of_uint64 v :: repeat x00 7.
Proof.
  intros Hv. split.
  - now rewrite put_loop_app, put_loop_small.
  - assert (Hcases : v = 0 \/ v = 1 \/ v = 2 \/ v = 3 \/ v = 4 \/ v = 5 \/ v = 6
            \/ v = 7 \/ v = 8 \/ v = 9 \/ v = 10 \/ v = 11 \/ v = 12 \/ v = 13
            \/ v = 14 \/ v = 15) by lia.
    repeat (destruct Hcases as [-> | Hcases]; [reflexivity|]).
    now subst.
Qed.

Lemma length_loop_below_16_witness :
  put_loop 13 [] = [] ++ le64_spec 13
  /\ le64_spec 13 = char_of_uint64 13 :: repeat x00 7.
Proof.
  apply (length_loop_below_16 13 []). reflexivity.
Defined.

(* ################################################################# *)
(** * What the reader reads *)

Lemma loadBinary_prefix (d rest : list byte) :
  NamedBinaryInputArchive.loadBinary (N.of_nat (length d))
    (NamedBinaryInputArchive.mk (d ++ rest))
  = Done d (NamedBinaryInputArchive.mk rest).
Proof.
  unfold NamedBinaryInputArchive.loadBinary, sgetn.
  cbn [NamedBinaryInputArchive.itsStream]. rewrite Nat2N.id.
  rewrite firstn_app, firstn_all, skipn_app, skipn_all, Nat.sub_diag.
  cbn [firstn skipn app]. rewrite app_nil_r, N.eqb_refl. reflexivity.
Qed.

(** X14. [loadBinary] asked for as many bytes as a buffer has, on a stream
    that starts with the bytes of the buffer, returns those bytes and
    leaves the stream at the byte that follows them. *)
Theorem loadBinary_reads_prefix (d rest : list byte) :
  NamedBinaryInputArchive.loadBinary (N.of_nat (length d))
    (NamedBinaryInputArchive.mk (d ++ rest))
  = Done d (NamedBinaryInputArchive.mk rest)
  /\ (NamedBinaryInputArchive.loadBinary (N.of_nat (length d)) ;;;
      NamedBinaryInputArchive.loadBinary (N.of_nat (length rest)))
       (NamedBinaryInputArchive.mk (d ++ rest))
     = Done rest (NamedBinaryInputArchive.mk []).
Proof.
  split; [apply loadBinary_prefix|].
  unfold bind. rewrite loadBinary_prefix.
  rewrite <- (app_nil_r rest) at 2. apply loadBinary_prefix.
Qed.

(** X15. The stream that the reader loads a value from is the plain
    sequence of the primitives of the value, with no length and no name
    between them: from such a stream, loading the type of the value returns
    its primitives in order and leaves the stream after them. *)
Theorem load_reads_raw_primitives (v : value) (rest : list byte) :
  load (type_of v) (NamedBinaryInputArchive.mk (concat (primitives v) ++ rest))
  = Done (primitives v) (NamedBinaryInputArchive.mk rest).
Proof.
  revert rest.
  induction v as [t|name v IH|s|data|members IH] using value_induction;
    intros rest; cbn [type_of primitives load].
  - cbn [concat]. rewrite app_nil_r. unfold bind.
    now rewrite loadBinary_prefix.
  - unfold bind, NamedBinaryInputArchive.setNextName. apply IH.
  - cbn [concat]. rewrite app_nil_r. unfold bind.
    now rewrite loadBinary_prefix.
  - cbn [concat]. rewrite app_nil_r. unfold bind.
    now rewrite loadBinary_prefix.
  - revert rest. induction IH as [|m ms Hm _ IHms]; intros rest.
    + reflexivity.
    + cbn [map flat_map]. rewrite concat_app, <- app_assoc.
      unfold bind at 1. rewrite Hm.
      unfold bind at 1. rewrite IHms. reflexivity.
Qed.

(** X16. In the stream that saving a named primitive of at least one byte
    produces, the bytes of the primitive come last and untouched, after a
    header of 24 bytes plus the bytes of the name: a reader that first
    loads that many bytes then loads the primitive as it was written. *)
Theorem payload_follows_header (n : string) (t : list byte) :
  t <> [] ->
  fits_int t ->
  exists os header,
    save (NameValuePair n (Arithmetic t)) (create [])
    = Done tt (create os)
    /\ os = header ++ t
    /\ N.of_nat (length header) = 24 + size n
    /\ (NamedBinaryInputArchive.loadBinary (24 + size n) ;;;
        NamedBinaryInputArchive.loadBinary (N.of_nat (length t)))
         (NamedBinaryInputArchive.mk os)
       = Done t (NamedBinaryInputArchive.mk []).
Proof.
  intros Hne Hfit.
  set (header := put_loop ((N.of_nat (length t) + size n + 8) mod two64) []
                 ++ put_loop (size n) [] ++ chars n
                 ++ put_loop (N.of_nat (length t)) []).
  assert (Hlen : N.of_nat (length header) = 24 + size n).
  { subst header. unfold size.
    rewrite !length_app, !put_loop_length, chars_length. lia. }
  exists (header ++ t), header.
  split; [|split; [reflexivity|split; [exact Hlen|]]].
  - unfold create. rewrite (save_named_primitive n t EmptyString [] [] Hne Hfit).
    subst header. cbn [app]. now rewrite <- !app_assoc.
  - unfold bind. rewrite <- Hlen, loadBinary_prefix.
    rewrite <- (app_nil_r t) at 2. apply loadBinary_prefix.
Qed.

Lemma payload_follows_header_witness :
  exists os header,
    save (NameValuePair "x" (Arithmetic int42)) (create [])
    = Done tt (create os)
    /\ os = header ++ int42
    /\ N.of_nat (length header) = 24 + size "x"
    /\ (NamedBinaryInputArchive.loadBinary (24 + size "x") ;;;
        NamedBinaryInputArchive.loadBinary (N.of_nat (length int42)))
         (NamedBinaryInputArchive.mk os)
       = Done int42 (NamedBinaryInputArchive.mk []).
Proof.
  apply (payload_follows_header "x" int42).
  - discriminate.
  - reflexivity.
Defined.

(* ################################################################# *)
(** * The lengths that a record declares *)




